(** * fix_types.py: truncate [types/index.ts] after the [TransactionLimit]
      interface and append the new type declarations.

    The script reads the file as text, looks for the line holding the
    marker ['export interface TransactionLimit'], looks from there for the
    first line that is a lone closing brace, keeps the lines up to that one,
    appends the literal [new_types] and writes the file back.

    Text is a list of Unicode code points, as a Python [str] is.  The file
    holds its decoded text with the line ends it has on disk (LF, CR or
    CRLF).  Both [open] calls leave [newline] at its default: reading
    hands every line end over as LF, and writing puts [os.linesep] for
    every LF, so the platform the script runs on is a parameter of a
    run. *)

From Stdlib Require Import String Ascii.
From Stdlib Require Import List NArith ZArith Bool Lia.
Import ListNotations.

Set Implicit Arguments.

(** ** Characters and text *)

Definition char := N.
Definition text := list char.

Definition of_string (s : string) : text :=
  map N_of_ascii (list_ascii_of_string s).

Definition LF : char := 10%N.
Definition CR : char := 13%N.
Definition rbrace : char := 125%N.

Definition char_eqb (a b : char) : bool := N.eqb a b.

Fixpoint text_eqb (a b : text) : bool :=
  match a, b with
  | [], [] => true
  | x :: a', y :: b' => char_eqb x y && text_eqb a' b'
  | _, _ => false
  end.

(** [str.isspace] on one code point: the characters CPython lists as
    whitespace (bidirectional class WS, B or S, or category Zs). *)
Definition isspace (c : char) : bool :=
  ((9 <=? c) && (c <=? 13) ||
   (28 <=? c) && (c <=? 32) ||
   (c =? 133) || (c =? 160) || (c =? 5760) ||
   (8192 <=? c) && (c <=? 8202) ||
   (c =? 8232) || (c =? 8233) || (c =? 8239) || (c =? 8287) ||
   (c =? 12288))%N.

(** [s.lstrip()], [s.rstrip()] and [s.strip()] with no argument. *)
Fixpoint lstrip (s : text) : text :=
  match s with
  | [] => []
  | c :: s' => if isspace c then lstrip s' else s
  end.

Definition rstrip (s : text) : text := rev (lstrip (rev s)).

Definition strip (s : text) : text := rstrip (lstrip s).

(** [needle in hay] on strings: [needle] occurs as a contiguous run. *)
Fixpoint startswith (p s : text) : bool :=
  match p, s with
  | [], _ => true
  | _ :: _, [] => false
  | a :: p', b :: s' => char_eqb a b && startswith p' s'
  end.

Fixpoint contains (needle hay : text) : bool :=
  startswith needle hay ||
  match hay with
  | [] => false
  | _ :: hay' => contains needle hay'
  end.

(** ** The file and the console *)

(** Reading in text mode with [newline=None] (universal newlines): a CR
    followed by LF, and a CR alone, are handed over as one LF. *)
Fixpoint universal_newlines (s : text) : text :=
  match s with
  | [] => []
  | c :: rest =>
      if char_eqb c CR then
        LF :: match rest with
              | [] => []
              | c' :: rest' =>
                  if char_eqb c' LF then universal_newlines rest'
                  else universal_newlines rest
              end
      else c :: universal_newlines rest
  end.

(** The text cut after every LF, each piece keeping its LF; a last piece
    without LF is kept as it is; the empty text has no line. *)
Fixpoint cut_lines (s : text) : list text :=
  match s with
  | [] => []
  | c :: rest =>
      if char_eqb c LF then [c] :: cut_lines rest
      else match cut_lines rest with
           | [] => [[c]]
           | l :: ls => (c :: l) :: ls
           end
  end.

(** [f.readlines()] on the file opened for reading: the lines of the
    text as the text layer hands it over, every line end being LF. *)
Definition readlines (s : text) : list text :=
  cut_lines (universal_newlines s).

(** The platform, for what it decides here: [os.linesep]. *)
Inductive Platform : Type := Posix | Windows.

Definition linesep (os : Platform) : text :=
  match os with
  | Posix => [LF]
  | Windows => [CR; LF]
  end.

(** Writing in text mode with [newline=None]: every LF written is put on
    disk as [os.linesep]. *)
Definition newlines_out (os : Platform) (s : text) : text :=
  flat_map (fun c => if char_eqb c LF then linesep os else [c]) s.

(** [f.writelines(ls)] writes the strings one after the other, adding
    nothing between them. *)
Definition writelines (ls : list text) : text := concat ls.

(** The world the script runs in: the content of the file at [file_path]
    as it is on disk, the contents put there so far (one entry per
    [open(.., 'w')] that was written through and closed), and the lines
    printed. *)
Record World : Type := mkWorld {
  file : text;
  writes : list text;
  stdout : list string
}.

Definition write_file (os : Platform) (content : text) (w : World) : World :=
  {| file := newlines_out os content;
     writes := writes w ++ [newlines_out os content];
     stdout := stdout w |}.

Definition print (msg : string) (w : World) : World :=
  {| file := file w; writes := writes w; stdout := stdout w ++ [msg] |}.

(** ** The script *)

Definition marker : text := of_string "export interface TransactionLimit".

Definition close_line : text := [rbrace].

(** The inner loop, [for j in range(i, len(lines))], run on the lines from
    index [j] on: the index of the first line whose [strip()] is ['}'], or
    the initial [-1] when the loop ends without assigning. *)
Fixpoint find_close (rest : list text) (j : Z) : Z :=
  match rest with
  | [] => -1
  | l :: rest' =>
      if text_eqb (strip l) close_line then j
      else find_close rest' (j + 1)
  end%Z.

(** The outer loop, [for i, line in enumerate(lines)], run on the lines
    from index [i] on: at the first line that holds the marker the inner
    loop runs from that same line and the outer loop is left. *)
Fixpoint find_anchor (rest : list text) (i : Z) : Z :=
  match rest with
  | [] => -1
  | line :: rest' =>
      if contains marker line then find_close rest i
      else find_anchor rest' (i + 1)
  end%Z.

Definition limit_end_index (lines : list text) : Z := find_anchor lines 0.

(** [l[:k]] for a Python list: a negative [k] counts from the end. *)
Definition slice_to (A : Type) (l : list A) (k : Z) : list A :=
  if (k <? 0)%Z then firstn (Z.to_nat (Z.of_nat (length l) + k)) l
  else firstn (Z.to_nat k) l.

(** The lines [ls], each closed by a line end, as one text. *)
Definition unlines (ls : list string) : text :=
  concat (map (fun l => of_string l ++ [LF]) ls).

Definition payload_lines : list string :=
  [ "";
    "export interface AntiFraudRule {";
    "  ruleId: string;";
    "  ruleName: string;";
    "  keyFingerprint?: string;";
    "  createdAt: number;";
    "  expiresAt?: number;";
    "}";
    "";
    "export interface KeyVerificationResult {";
    "  verified: boolean;";
    "  error?: string;";
    "  timestamp: number;";
    "  method?: 'manual' | 'biometric' | 'automatic';";
    "}";
    "";
    "export interface KeyExchangeSession {";
    "  sessionId: string;";
    "  chatId: string;";
    "  participantId: string;";
    "  status: 'pending' | 'key_exchange' | 'established' | 'verified' | 'failed';";
    "  keyFingerprint?: string;";
    "  createdAt: number;";
    "  updatedAt: number;";
    "}";
    "";
    "export type DLPCategory = 'financial' | 'personal' | 'health' | 'profanity' | 'custom';";
    "";
    "export interface DLPViolation {";
    "  category: DLPCategory;";
    "  matches: string[];";
    "  confidence: number;";
    "  startIndex: number;";
    "  endIndex: number;";
    "}";
    "";
    "export interface E2EEMessage {";
    "  id: string;";
    "  senderId: string;";
    "  content: string; // Encrypted content";
    "  timestamp: number;";
    "  protocolVersion: number;";
    "  iv: string;";
    "  senderKeyId?: number;";
    "  receiverKeyId?: number;";
    "  signature?: string;";
    "}" ]%string.

(** The triple-quoted literal [new_types]: it opens with a line end, and
    every line of it is closed by one. *)
Definition new_types : text := unlines payload_lines.

Definition msg_fixed : string := "File fixed successfully.".
Definition msg_not_found : string := "TransactionLimit not found.".

(** The list [new_content] of the [if] branch. *)
Definition new_content (lines : list text) (limit : Z) : list text :=
  slice_to lines (limit + 1) ++ [new_types].

(** The whole script, from [open(.., 'r')] to the final [print]. *)
Definition main (os : Platform) (w : World) : World :=
  let lines := readlines (file w) in
  let limit := limit_end_index lines in
  if negb (limit =? -1)%Z then
    print msg_fixed (write_file os (writelines (new_content lines limit)) w)
  else
    print msg_not_found w.

(** The message a run prints, as the [if] at the end of the script picks
    it. *)
Definition message (w : World) : string :=
  if negb (limit_end_index (readlines (file w)) =? -1)%Z then msg_fixed
  else msg_not_found.

(** A world holding [doc] in the file, nothing written or printed yet. *)
Definition fresh (doc : text) : World :=
  {| file := doc; writes := []; stdout := [] |}.

(** ** What the claims speak of *)

(** A run of whitespace. *)
Definition blank (s : text) : Prop := Forall (fun c => isspace c = true) s.

(** The line holds the marker as a substring. *)
Definition holds_marker (l : text) : Prop :=
  exists pre post, l = pre ++ marker ++ post.

(** The line, with the whitespace around it removed, is exactly ['}']. *)
Definition lone_brace (l : text) : Prop :=
  exists pre post, l = pre ++ rbrace :: post /\ blank pre /\ blank post.

(** [i] is the index of the first line that holds the marker. *)
Definition anchor_at (lines : list text) (i : nat) : Prop :=
  (exists l, nth_error lines i = Some l /\ holds_marker l) /\
  (forall k l, k < i -> nth_error lines k = Some l -> ~ holds_marker l).

(** [j] is the index of the first lone-brace line at or after the first
    marker line. *)
Definition boundary_at (lines : list text) (j : nat) : Prop :=
  exists i, anchor_at lines i /\ i <= j /\
    (exists l, nth_error lines j = Some l /\ lone_brace l) /\
    (forall k l, i <= k < j -> nth_error lines k = Some l -> ~ lone_brace l).

(** A line as [readlines] gives it: closed by LF, or the last one, not
    empty and without LF. *)
Definition terminated (l : text) : Prop :=
  exists body, l = body ++ [LF] /\ ~ In LF body.

Definition unterminated (l : text) : Prop :=
  l <> [] /\ ~ In LF l.

(** The index of the first element that satisfies [p]. *)
Fixpoint first_index (A : Type) (p : A -> bool) (ls : list A) : option nat :=
  match ls with
  | [] => None
  | x :: r => if p x then Some 0 else option_map S (first_index p r)
  end.

(** The test of the inner loop. *)
Definition is_close (l : text) : bool := text_eqb (strip l) close_line.

(** The boundary as an optional index: the first marker line, then the
    first lone brace from there on. *)
Definition boundary (lines : list text) : option nat :=
  match first_index (contains marker) lines with
  | None => None
  | Some a =>
      match first_index is_close (skipn a lines) with
      | None => None
      | Some n => Some (a + n)
      end
  end.

(** ** Sample documents *)

(** The document of the specification's scenario. *)
Definition doc_scenario : text :=
  unlines [ "export interface TransactionLimit {";
            "  amount: number;";
            "}";
            "export interface Other { x: number; }" ]%string.

(** No line holds the marker. *)
Definition doc_missing : text :=
  unlines [ "export interface Missing {";
            "  amount: number;";
            "}" ]%string.

(** The block is closed by a brace that shares its line with a semicolon,
    and no lone brace follows. *)
Definition doc_open : text :=
  unlines [ "export interface TransactionLimit {";
            "  amount: number;";
            "};" ]%string.

(** The brace with a semicolon comes first, a lone brace later. *)
Definition doc_semicolon : text :=
  unlines [ "export interface TransactionLimit {";
            "  limits: {";
            "  };";
            "}";
            "export interface Other { x: number; }" ]%string.

(** The scenario document with other lines after the lone brace. *)
Definition doc_other_tail : text :=
  unlines [ "export interface TransactionLimit {";
            "  amount: number;";
            "}";
            "";
            "export type Unrelated = string;";
            "}" ]%string.

(** The scenario document with CRLF line ends. *)
Definition doc_crlf : text :=
  concat (map (fun l => of_string l ++ [CR; LF])
            [ "export interface TransactionLimit {";
              "  amount: number;";
              "}";
              "export interface Other { x: number; }" ]%string).

(** The closing brace is the last line and the file does not end with a
    line end. *)
Definition doc_unterminated : text :=
  unlines [ "export interface TransactionLimit {";
            "  amount: number;" ]%string ++ of_string "}".

(** ** Text *)

Lemma char_eqb_eq (a b : char) : char_eqb a b = true <-> a = b.
Proof. apply N.eqb_eq. Qed.

Lemma text_eqb_eq (a b : text) : text_eqb a b = true <-> a = b.
Proof.
  revert b; induction a as [|x a IH]; intros [|y b]; simpl;
    try (split; [discriminate | discriminate]); try tauto.
  rewrite andb_true_iff, char_eqb_eq, IH.
  split; [intros [-> ->]; reflexivity | intros E; inversion E; auto].
Qed.

Lemma isspace_rbrace : isspace rbrace = false.
Proof. reflexivity. Qed.

Lemma isspace_LF : isspace LF = true.
Proof. reflexivity. Qed.

Lemma lstrip_blank_app (ws s : text) : blank ws -> lstrip (ws ++ s) = lstrip s.
Proof.
  induction 1 as [|c ws Hc _ IH]; simpl; [reflexivity|].
  now rewrite Hc.
Qed.

Lemma lstrip_split (s : text) :
  exists ws, s = ws ++ lstrip s /\ blank ws.
Proof.
  induction s as [|c s [ws [E B]]]; simpl.
  - exists []; split; [reflexivity | constructor].
  - destruct (isspace c) eqn:Hc.
    + exists (c :: ws); split; [simpl; congruence | constructor; assumption].
    + exists []; split; [reflexivity | constructor].
Qed.

Lemma blank_rev (s : text) : blank s -> blank (rev s).
Proof. unfold blank; intros H; now apply Forall_rev. Qed.

Lemma strip_lone_brace (l : text) : strip l = close_line <-> lone_brace l.
Proof.
  unfold strip, rstrip, close_line, lone_brace; split.
  - intros H.
    apply (f_equal (@rev char)) in H; rewrite rev_involutive in H; simpl in H.
    destruct (lstrip_split l) as [ws1 [E1 B1]].
    destruct (lstrip_split (rev (lstrip l))) as [ws2 [E2 B2]].
    rewrite H in E2.
    apply (f_equal (@rev char)) in E2.
    rewrite rev_involutive, rev_app_distr in E2; simpl in E2.
    exists ws1, (rev ws2); repeat split.
    + now rewrite <- E2.
    + assumption.
    + now apply blank_rev.
  - intros (pre & post & -> & Bpre & Bpost).
    rewrite lstrip_blank_app by assumption.
    change (lstrip (rbrace :: post)) with (rbrace :: post).
    change (rev (rbrace :: post)) with (rev post ++ [rbrace]).
    rewrite lstrip_blank_app by now apply blank_rev.
    reflexivity.
Qed.

Lemma is_close_iff (l : text) :
  text_eqb (strip l) close_line = true <-> lone_brace l.
Proof. now rewrite text_eqb_eq, strip_lone_brace. Qed.

Lemma startswith_iff (p s : text) :
  startswith p s = true <-> exists post, s = p ++ post.
Proof.
  revert s; induction p as [|a p IH]; intros s; simpl.
  - split; [exists s; reflexivity | reflexivity].
  - destruct s as [|b s].
    + split; [discriminate | intros [post E]; discriminate].
    + rewrite andb_true_iff, char_eqb_eq, IH. split.
      * intros [-> [post ->]]. now exists post.
      * intros [post E]. inversion E; subst. split; [reflexivity | now exists post].
Qed.

Lemma contains_iff (needle hay : text) :
  contains needle hay = true <-> exists pre post, hay = pre ++ needle ++ post.
Proof.
  induction hay as [|c hay IH]; simpl.
  - rewrite orb_false_r, startswith_iff. split.
    + intros [post E]. now exists [], post.
    + intros (pre & post & E). destruct pre; [now exists post|discriminate].
  - rewrite orb_true_iff, startswith_iff, IH. split.
    + intros [[post E] | (pre & post & E)].
      * now exists [], post.
      * exists (c :: pre), post. simpl. now rewrite E.
    + intros (pre & post & E). destruct pre as [|c' pre].
      * left. now exists post.
      * right. inversion E. now exists pre, post.
Qed.

Lemma has_marker_iff (l : text) : contains marker l = true <-> holds_marker l.
Proof. apply contains_iff. Qed.

(** ** Searching a list *)

Section FirstIndexFacts.
Variable A : Type.
Variable p : A -> bool.

Lemma first_index_Some (ls : list A) (n : nat) :
  first_index p ls = Some n <->
  (exists x, nth_error ls n = Some x /\ p x = true) /\
  (forall k x, k < n -> nth_error ls k = Some x -> p x = false).
Proof.
  revert n; induction ls as [|y r IH]; intros n; simpl.
  - split; [discriminate|]. intros [[x [E _]] _]. destruct n; discriminate.
  - destruct (p y) eqn:Hy.
    + split.
      * intros E; inversion E; subst. split; [now exists y | intros k x Hk; lia].
      * intros [_ H]. destruct n as [|n]; [reflexivity|].
        specialize (H 0 y (Nat.lt_0_succ n) eq_refl). congruence.
    + destruct n as [|n].
      * split.
        -- destruct (first_index p r); discriminate.
        -- intros [[x [E Hx]] _]. simpl in E. congruence.
      * destruct (first_index p r) as [m|] eqn:Em; simpl.
        -- split.
           ++ intros E; inversion E; subst m.
              destruct (proj1 (IH n) eq_refl) as [Hn Hlt]. split; [exact Hn|].
              intros [|k] x Hk E'; simpl in E'; [congruence|].
              apply (Hlt k); [lia | assumption].
           ++ intros [Hn Hlt]. f_equal. f_equal.
              assert (Some m = Some n) as E; [|now inversion E].
              apply IH. split; [exact Hn|].
              intros k x Hk E'. apply (Hlt (S k)); [lia | assumption].
        -- split; [discriminate|].
           intros [Hn Hlt]. exfalso.
           assert (None = Some n) as E; [|discriminate].
           apply IH. split; [exact Hn|].
           intros k x Hk E'. apply (Hlt (S k)); [lia | assumption].
Qed.

Lemma first_index_None (ls : list A) :
  first_index p ls = None <-> forall x, In x ls -> p x = false.
Proof.
  induction ls as [|y r IH]; simpl.
  - split; [intros _ x [] | reflexivity].
  - destruct (p y) eqn:Hy.
    + split; [discriminate|]. intros H. specialize (H y (or_introl eq_refl)). congruence.
    + destruct (first_index p r) eqn:E; simpl.
      * split; [discriminate|]. intros H.
        assert (Some n = None) as X; [|discriminate].
        apply IH. intros x Hx. apply H. now right.
      * split; [|reflexivity]. intros _ x [<- | Hx]; [assumption|].
        now apply (proj1 IH).
Qed.

Lemma first_index_lt (ls : list A) (n : nat) :
  first_index p ls = Some n -> n < length ls.
Proof.
  intros H. apply first_index_Some in H. destruct H as [[x [E _]] _].
  apply nth_error_Some. congruence.
Qed.
End FirstIndexFacts.

(** ** The two loops *)

Lemma find_close_first (rest : list text) (j : Z) :
  find_close rest j =
  match first_index is_close rest with
  | Some n => (j + Z.of_nat n)%Z
  | None => (-1)%Z
  end.
Proof.
  revert j; induction rest as [|l rest IH]; intros j; simpl; [reflexivity|].
  fold (is_close l). destruct (is_close l).
  - now rewrite Z.add_0_r.
  - rewrite IH. destruct (first_index is_close rest); simpl; [lia | reflexivity].
Qed.

Lemma find_anchor_first (rest : list text) (i : Z) :
  find_anchor rest i =
  match first_index (contains marker) rest with
  | Some a => find_close (skipn a rest) (i + Z.of_nat a)
  | None => (-1)%Z
  end.
Proof.
  revert i; induction rest as [|l rest IH]; intros i; [reflexivity|].
  cbn [find_anchor first_index].
  destruct (contains marker l).
  - now rewrite Z.add_0_r.
  - rewrite IH. destruct (first_index (contains marker) rest) as [a|]; simpl.
    + f_equal. lia.
    + reflexivity.
Qed.

Lemma limit_end_index_boundary (lines : list text) :
  limit_end_index lines =
  match boundary lines with
  | Some j => Z.of_nat j
  | None => (-1)%Z
  end.
Proof.
  unfold limit_end_index, boundary. rewrite find_anchor_first.
  destruct (first_index (contains marker) lines) as [a|]; [|reflexivity].
  rewrite find_close_first.
  destruct (first_index is_close (skipn a lines)); [lia | reflexivity].
Qed.

Lemma boundary_lt (lines : list text) (j : nat) :
  boundary lines = Some j -> j < length lines.
Proof.
  unfold boundary.
  destruct (first_index (contains marker) lines) as [a|] eqn:Ea; [|discriminate].
  destruct (first_index is_close (skipn a lines)) as [n|] eqn:En; [|discriminate].
  intros E; inversion E; subst.
  apply first_index_lt in Ea, En. rewrite length_skipn in En. lia.
Qed.

Lemma nth_error_skipn_add (A : Type) (l : list A) (a n : nat) :
  nth_error (skipn a l) n = nth_error l (a + n).
Proof.
  revert l; induction a as [|a IH]; intros l; simpl; [reflexivity|].
  destruct l; simpl; [now destruct n | apply IH].
Qed.

Lemma anchor_at_first (lines : list text) (i : nat) :
  first_index (contains marker) lines = Some i <-> anchor_at lines i.
Proof.
  rewrite first_index_Some. unfold anchor_at. split.
  - intros [[l [E H]] Hlt]. split.
    + exists l. split; [assumption | now apply has_marker_iff].
    + intros k l' Hk E' Hm. apply has_marker_iff in Hm.
      rewrite (Hlt k l' Hk E') in Hm. discriminate.
  - intros [[l [E H]] Hlt]. split.
    + exists l. split; [assumption | now apply has_marker_iff].
    + intros k l' Hk E'. destruct (contains marker l') eqn:C; [|reflexivity].
      exfalso. apply (Hlt k l' Hk E'). now apply has_marker_iff.
Qed.

Lemma anchor_at_unique (lines : list text) (i i' : nat) :
  anchor_at lines i -> anchor_at lines i' -> i = i'.
Proof.
  intros H H'. apply anchor_at_first in H, H'. congruence.
Qed.

Lemma boundary_at_iff (lines : list text) (j : nat) :
  boundary lines = Some j <-> boundary_at lines j.
Proof.
  unfold boundary, boundary_at. split.
  - destruct (first_index (contains marker) lines) as [a|] eqn:Ea; [|discriminate].
    destruct (first_index is_close (skipn a lines)) as [n|] eqn:En; [|discriminate].
    intros E; inversion E; subst j. exists a.
    apply anchor_at_first in Ea. apply first_index_Some in En.
    destruct En as [[l [El Hl]] Hlt]. rewrite nth_error_skipn_add in El.
    repeat split; [apply Ea | apply Ea | lia | |].
    + exists l. split; [assumption | now apply is_close_iff].
    + intros k l' [Hk1 Hk2] E' Hb. apply is_close_iff in Hb.
      assert (is_close l' = false) as X; [|unfold is_close in X; congruence].
      apply (Hlt (k - a) l'); [lia|].
      rewrite nth_error_skipn_add. now replace (a + (k - a)) with k by lia.
  - intros (i & Hi & Hij & [l [El Hl]] & Hlt).
    apply anchor_at_first in Hi. rewrite Hi.
    assert (first_index is_close (skipn i lines) = Some (j - i)) as ->.
    { apply first_index_Some. split.
      - exists l. rewrite nth_error_skipn_add.
        replace (i + (j - i)) with j by lia.
        split; [assumption | now apply is_close_iff].
      - intros k x Hk E'. rewrite nth_error_skipn_add in E'.
        destruct (is_close x) eqn:C; [|reflexivity].
        exfalso. apply (Hlt (i + k) x); [lia | assumption | now apply is_close_iff]. }
    f_equal. lia.
Qed.

(** A line that holds the marker is not a lone brace: the marker's first
    letter is neither whitespace nor a brace. *)
Lemma lone_brace_chars (l : text) (c : char) :
  lone_brace l -> In c l -> c = rbrace \/ isspace c = true.
Proof.
  intros (pre & post & -> & Bpre & Bpost) Hin.
  unfold blank in Bpre, Bpost. rewrite Forall_forall in Bpre, Bpost.
  apply in_app_or in Hin. destruct Hin as [Hin | [<- | Hin]]; auto.
Qed.

Lemma marker_not_lone_brace (l : text) : holds_marker l -> ~ lone_brace l.
Proof.
  intros (pre & post & ->) Hb.
  destruct (@lone_brace_chars _ 101%N Hb) as [E | E]; try discriminate.
  apply in_or_app. right. now left.
Qed.

(** The boundary depends on the lines before it and on line [b] being a
    lone brace, and on nothing else. *)
Lemma boundary_at_prefix (lines lines' : list text) (b : nat) (l' : text) :
  boundary_at lines b ->
  firstn b lines' = firstn b lines ->
  nth_error lines' b = Some l' ->
  lone_brace l' ->
  boundary_at lines' b.
Proof.
  intros (a & [[la [Ela Hla]] Hlt] & Hab & [lb [Elb Hlb]] & Hno) Hpre El' Hl'.
  assert (forall k, k < b -> nth_error lines' k = nth_error lines k) as Hsame.
  { intros k Hk.
    assert (forall ls : list text, nth_error (firstn b ls) k = nth_error ls k) as F.
    { intros ls. rewrite nth_error_firstn.
      destruct (Nat.ltb_spec k b); [reflexivity | lia]. }
    now rewrite <- (F lines'), <- (F lines), Hpre. }
  assert (a < b) as Hlt_ab.
  { destruct (Nat.eq_dec a b) as [-> | ?]; [|lia].
    exfalso. rewrite Ela in Elb. inversion Elb; subst.
    now apply (marker_not_lone_brace Hla). }
  exists a. repeat split.
  - exists la. now rewrite Hsame.
  - intros k l Hk E. rewrite Hsame in E by lia. now apply (Hlt k).
  - assumption.
  - now exists l'.
  - intros k l Hk E. rewrite Hsame in E by lia. now apply (Hno k).
Qed.

(** ** Reading lines *)

Lemma concat_cut_lines (s : text) : concat (cut_lines s) = s.
Proof.
  induction s as [|c s IH]; simpl; [reflexivity|].
  destruct (char_eqb c LF).
  - simpl. now rewrite IH.
  - destruct (cut_lines s) as [|l ls]; simpl in *; now rewrite <- IH.
Qed.

Lemma cut_lines_shape (s : text) (k : nat) (l : text) :
  nth_error (cut_lines s) k = Some l ->
  terminated l \/ (unterminated l /\ S k = length (cut_lines s)).
Proof.
  revert k l; induction s as [|c s IH]; intros k l; simpl.
  - destruct k; discriminate.
  - destruct (char_eqb c LF) eqn:Ec.
    + apply char_eqb_eq in Ec; subst c. destruct k as [|k]; simpl.
      * intros E; inversion E; subst. left. exists []. split; [reflexivity | intros []].
      * intros E. destruct (IH k l E) as [T | [U L]]; [now left | right].
        split; [assumption | now rewrite L].
    + assert (c <> LF) as Hc.
      { intros ->. unfold char_eqb in Ec. now rewrite N.eqb_refl in Ec. }
      destruct (cut_lines s) as [|l0 ls] eqn:Er.
      * destruct k as [|k]; simpl; [|destruct k; discriminate].
        intros E; inversion E; subst. right. repeat split.
        -- discriminate.
        -- intros [H | []]. congruence.
      * destruct k as [|k]; simpl.
        -- intros E; inversion E; subst.
           destruct (IH 0 l0 eq_refl) as [(body & -> & Hb) | [[_ U] L]].
           ++ left. exists (c :: body). split; [reflexivity|].
              intros [H | H]; [congruence | contradiction].
           ++ right. repeat split; [discriminate | | assumption].
              intros [H | H]; [congruence | contradiction].
        -- intros E. apply (IH (S k) l E).
Qed.

Lemma cut_lines_terminated_app (body s : text) :
  ~ In LF body ->
  cut_lines ((body ++ [LF]) ++ s) = (body ++ [LF]) :: cut_lines s.
Proof.
  induction body as [|c body IH]; intros Hb; simpl.
  - reflexivity.
  - assert (char_eqb c LF = false) as ->.
    { destruct (char_eqb c LF) eqn:E; [|reflexivity].
      apply char_eqb_eq in E. exfalso. apply Hb. now left. }
    rewrite IH; [reflexivity|]. intros H. apply Hb. now right.
Qed.

Lemma cut_lines_concat_app (ls : list text) (s : text) :
  Forall terminated ls ->
  cut_lines (concat ls ++ s) = ls ++ cut_lines s.
Proof.
  induction 1 as [|l ls (body & -> & Hb) _ IH]; simpl; [reflexivity|].
  rewrite <- app_assoc, cut_lines_terminated_app by assumption.
  now rewrite IH.
Qed.

(** Every line before index [b] of a document is closed by LF when there
    is a line at index [b]. *)
Lemma cut_lines_firstn_terminated (s : text) (b : nat) :
  b < length (cut_lines s) -> Forall terminated (firstn b (cut_lines s)).
Proof.
  intros Hb. apply Forall_forall. intros l Hin.
  apply In_nth_error in Hin. destruct Hin as [k Ek].
  assert (k < b) as Hk.
  { assert (k < length (firstn b (cut_lines s))) as H
      by (apply nth_error_Some; congruence).
    rewrite length_firstn in H. lia. }
  rewrite nth_error_firstn in Ek.
  destruct (Nat.ltb_spec k b); [|lia].
  destruct (cut_lines_shape s k Ek) as [T | [_ L]]; [assumption | lia].
Qed.

Lemma firstn_S_nth_error (A : Type) (l : list A) (b : nat) (x : A) :
  nth_error l b = Some x -> firstn (S b) l = firstn b l ++ [x].
Proof.
  revert l; induction b as [|b IH]; intros [|y l]; simpl; try discriminate.
  - intros E; now inversion E.
  - intros E. f_equal. now apply IH.
Qed.

(** ** Line ends *)

Lemma text_pair_ind (P : text -> Prop) :
  P [] -> (forall c, P [c]) ->
  (forall c c' s, P s -> P (c' :: s) -> P (c :: c' :: s)) ->
  forall s, P s.
Proof.
  intros H0 H1 H2 s.
  assert (P s /\ forall c, P (c :: s)) as [H _]; [|exact H].
  induction s as [|c' s [IH1 IH2]].
  - split; [exact H0 | exact H1].
  - split; [apply IH2 | intros c; apply H2; [exact IH1 | apply IH2]].
Qed.

Lemma universal_newlines_cons (c : char) (rest : text) :
  universal_newlines (c :: rest) =
  if char_eqb c CR then
    LF :: match rest with
          | [] => []
          | c' :: rest' =>
              if char_eqb c' LF then universal_newlines rest'
              else universal_newlines rest
          end
  else c :: universal_newlines rest.
Proof. reflexivity. Qed.

Lemma char_eqb_neq (a b : char) : char_eqb a b = false <-> a <> b.
Proof. apply N.eqb_neq. Qed.

Lemma universal_newlines_no_CR (s : text) : ~ In CR (universal_newlines s).
Proof.
  induction s as [|c|c c' s IH1 IH2] using text_pair_ind.
  - intros [].
  - rewrite universal_newlines_cons. destruct (char_eqb c CR) eqn:E.
    + intros [H | []]. discriminate H.
    + apply char_eqb_neq in E. intros [H | []]. congruence.
  - rewrite universal_newlines_cons. destruct (char_eqb c CR) eqn:E.
    + destruct (char_eqb c' LF); intros [H | H];
        try discriminate H; contradiction.
    + apply char_eqb_neq in E. intros [H | H]; [congruence | contradiction].
Qed.

Lemma universal_newlines_id (s : text) :
  ~ In CR s -> universal_newlines s = s.
Proof.
  induction s as [|c s IH]; intros H; [reflexivity|].
  rewrite universal_newlines_cons.
  assert (char_eqb c CR = false) as -> by (apply char_eqb_neq; intros ->; apply H; now left).
  rewrite IH; [reflexivity|]. intros Hin. apply H. now right.
Qed.

Lemma newlines_out_cons (os : Platform) (c : char) (t : text) :
  newlines_out os (c :: t) =
  (if char_eqb c LF then linesep os else [c]) ++ newlines_out os t.
Proof. reflexivity. Qed.

Lemma newlines_out_posix (t : text) : newlines_out Posix t = t.
Proof.
  induction t as [|c t IH]; [reflexivity|].
  rewrite newlines_out_cons, IH.
  destruct (char_eqb c LF) eqn:E; [|reflexivity].
  apply char_eqb_eq in E. now subst.
Qed.

(** What is written is read back as it was handed to the text layer, when
    it holds no CR. *)
Lemma universal_newlines_out (os : Platform) (t : text) :
  ~ In CR t -> universal_newlines (newlines_out os t) = t.
Proof.
  destruct os.
  - rewrite newlines_out_posix. apply universal_newlines_id.
  - induction t as [|c t IH]; intros H; [reflexivity|].
    assert (~ In CR t) as Ht by (intros Hin; apply H; now right).
    assert (c <> CR) as Hc by (intros ->; apply H; now left).
    rewrite newlines_out_cons.
    destruct (char_eqb c LF) eqn:E.
    + apply char_eqb_eq in E. subst c.
      change (linesep Windows ++ newlines_out Windows t)
        with (CR :: LF :: newlines_out Windows t).
      rewrite universal_newlines_cons.
      change (char_eqb CR CR) with true. change (char_eqb LF LF) with true.
      cbv iota. now rewrite IH.
    + change ([c] ++ newlines_out Windows t) with (c :: newlines_out Windows t).
      rewrite universal_newlines_cons.
      apply char_eqb_neq in Hc. rewrite Hc. now rewrite IH.
Qed.

Lemma length_universal_newlines (s : text) :
  length (universal_newlines s) <= length s.
Proof.
  induction s as [|c|c c' s IH1 IH2] using text_pair_ind.
  - reflexivity.
  - rewrite universal_newlines_cons. now destruct (char_eqb c CR).
  - rewrite universal_newlines_cons. destruct (char_eqb c CR).
    + destruct (char_eqb c' LF); simpl in *; lia.
    + simpl in *. lia.
Qed.

Lemma length_newlines_out (os : Platform) (t : text) :
  length (newlines_out os t) <= 2 * length t.
Proof.
  induction t as [|c t IH]; [reflexivity|].
  rewrite newlines_out_cons, length_app.
  assert (length (if char_eqb c LF then linesep os else [c]) <= 2) as H
    by (destruct (char_eqb c LF), os; simpl; lia).
  change (length (c :: t)) with (S (length t)). lia.
Qed.

Lemma universal_newlines_keep (m post : text) :
  ~ In CR m -> universal_newlines (m ++ post) = m ++ universal_newlines post.
Proof.
  induction m as [|c m IH]; intros H; [reflexivity|].
  simpl app. rewrite universal_newlines_cons.
  assert (char_eqb c CR = false) as ->
    by (apply char_eqb_neq; intros ->; apply H; now left).
  rewrite IH; [reflexivity|]. intros Hin. apply H. now right.
Qed.

Lemma universal_newlines_app (pre x : text) :
  (forall r, x <> LF :: r) ->
  universal_newlines (pre ++ x) = universal_newlines pre ++ universal_newlines x.
Proof.
  intros Hx. induction pre as [|c|c c' s IH1 IH2] using text_pair_ind.
  - reflexivity.
  - simpl app. rewrite !universal_newlines_cons.
    destruct (char_eqb c CR); [|reflexivity].
    destruct x as [|c' x]; [reflexivity|].
    destruct (char_eqb c' LF) eqn:E; [|reflexivity].
    apply char_eqb_eq in E. subst c'. now destruct (Hx x).
  - change ((c :: c' :: s) ++ x) with (c :: c' :: (s ++ x)).
    rewrite (universal_newlines_cons c (c' :: s ++ x)).
    rewrite (universal_newlines_cons c (c' :: s)).
    change (c' :: s ++ x) with ((c' :: s) ++ x).
    destruct (char_eqb c CR).
    + destruct (char_eqb c' LF); simpl; f_equal; assumption.
    + simpl. f_equal. assumption.
Qed.

Lemma universal_newlines_tail (c x : char) (rest tail : text) :
  universal_newlines (c :: rest) = x :: tail ->
  exists pre0, universal_newlines rest = pre0 ++ tail.
Proof.
  rewrite universal_newlines_cons. destruct (char_eqb c CR).
  - destruct rest as [|c' rest'].
    + intros E. inversion E. now exists [].
    + destruct (char_eqb c' LF) eqn:E'.
      * intros E. inversion E. exists [LF].
        rewrite universal_newlines_cons.
        apply char_eqb_eq in E'. subst c'. reflexivity.
      * intros E. inversion E. now exists [].
  - intros E. inversion E. now exists [].
Qed.

(** A text free of line ends occurs in a document exactly when it occurs
    in what the text layer hands over. *)
Lemma substring_universal_newlines (m s : text) :
  m <> [] -> ~ In LF m -> ~ In CR m ->
  (exists pre post, s = pre ++ m ++ post) <->
  (exists pre post, universal_newlines s = pre ++ m ++ post).
Proof.
  intros Hne Hlf Hcr. split.
  - intros (pre & post & ->).
    exists (universal_newlines pre), (universal_newlines post).
    rewrite universal_newlines_app.
    + now rewrite universal_newlines_keep.
    + intros r E. destruct m as [|c m]; [contradiction|].
      inversion E. subst c. apply Hlf. now left.
  - assert (forall t post, universal_newlines t = m ++ post ->
              exists post', t = m ++ post') as Hhead.
    { clear Hne. induction m as [|c m IH]; intros t post E.
      - now exists t.
      - destruct t as [|c0 t]; [discriminate|].
        rewrite universal_newlines_cons in E.
        destruct (char_eqb c0 CR).
        + inversion E. subst c. exfalso. apply Hlf. now left.
        + inversion E. subst c0.
          destruct (IH (fun H => Hlf (or_intror H))
                       (fun H => Hcr (or_intror H)) t post H1) as [post' ->].
          now exists post'. }
    induction s as [|c s IH]; intros (pre & post & E).
    + destruct pre, m; simpl in E; try discriminate. contradiction.
    + destruct pre as [|x pre].
      * destruct (Hhead _ _ E) as [post' E']. exists [], post'. exact E'.
      * destruct (@universal_newlines_tail c x s (pre ++ m ++ post) E)
          as [pre0 E0].
        destruct IH as (pre' & post' & ->).
        { exists (pre0 ++ pre), post. now rewrite <- app_assoc. }
        now exists (c :: pre'), post'.
Qed.

(** ** What [readlines] hands over *)

Lemma concat_readlines (s : text) :
  concat (readlines s) = universal_newlines s.
Proof. apply concat_cut_lines. Qed.

Lemma readlines_shape (s : text) (k : nat) (l : text) :
  nth_error (readlines s) k = Some l ->
  terminated l \/ (unterminated l /\ S k = length (readlines s)).
Proof. apply cut_lines_shape. Qed.

Lemma readlines_firstn_terminated (s : text) (b : nat) :
  b < length (readlines s) -> Forall terminated (firstn b (readlines s)).
Proof. apply cut_lines_firstn_terminated. Qed.

Lemma in_concat_firstn (ls : list text) (n : nat) (c : char) :
  In c (concat (firstn n ls)) -> In c (concat ls).
Proof.
  intros H. rewrite <- (firstn_skipn n ls), concat_app.
  apply in_or_app. now left.
Qed.

Lemma readlines_no_CR (s l : text) : In l (readlines s) -> ~ In CR l.
Proof.
  intros Hin Hcr. apply (universal_newlines_no_CR s).
  rewrite <- concat_readlines. apply in_concat. now exists l.
Qed.

Lemma new_types_no_CR : ~ In CR new_types.
Proof.
  assert (forallb (fun c => negb (char_eqb c CR)) new_types = true) as H
    by (vm_compute; reflexivity).
  rewrite forallb_forall in H. intros Hin. specialize (H CR Hin).
  discriminate H.
Qed.

Lemma new_content_no_CR (s : text) (n : nat) :
  ~ In CR (concat (firstn n (readlines s)) ++ new_types).
Proof.
  intros H. apply in_app_or in H. destruct H as [H | H].
  - apply in_concat_firstn in H. rewrite concat_readlines in H.
    now apply (universal_newlines_no_CR s).
  - now apply new_types_no_CR.
Qed.

(** The lines read from what a run has written are those of the text the
    run handed to the text layer, on either platform. *)
Lemma readlines_written (os : Platform) (s : text) (n : nat) :
  readlines (newlines_out os (concat (firstn n (readlines s)) ++ new_types)) =
  cut_lines (concat (firstn n (readlines s)) ++ new_types).
Proof.
  unfold readlines at 1.
  now rewrite universal_newlines_out by apply new_content_no_CR.
Qed.

(** ** One run *)

Lemma slice_to_succ (lines : list text) (b : nat) :
  slice_to lines (Z.of_nat b + 1) = firstn (S b) lines.
Proof.
  unfold slice_to. destruct (Z.ltb_spec (Z.of_nat b + 1) 0); [lia|].
  f_equal. lia.
Qed.

Lemma writelines_new_content (lines : list text) (b : nat) :
  writelines (new_content lines (Z.of_nat b)) =
  concat (firstn (S b) lines) ++ new_types.
Proof.
  unfold writelines, new_content. rewrite slice_to_succ, concat_app.
  change (concat [new_types]) with (new_types ++ []).
  now rewrite app_nil_r.
Qed.

Lemma main_found (os : Platform) (w : World) (b : nat) :
  boundary (readlines (file w)) = Some b ->
  main os w =
  print msg_fixed
    (write_file os (concat (firstn (S b) (readlines (file w))) ++ new_types) w).
Proof.
  intros H. unfold main. rewrite limit_end_index_boundary, H.
  destruct (Z.eqb_spec (Z.of_nat b) (-1)); [lia|]. simpl negb. cbv iota.
  now rewrite writelines_new_content.
Qed.

Lemma main_not_found (os : Platform) (w : World) :
  boundary (readlines (file w)) = None ->
  main os w = print msg_not_found w.
Proof.
  intros H. unfold main. now rewrite limit_end_index_boundary, H.
Qed.

Lemma first_index_le (A : Type) (p : A -> bool) (ls : list A) (n : nat) (x : A) :
  nth_error ls n = Some x -> p x = true ->
  exists m, first_index p ls = Some m /\ m <= n.
Proof.
  intros E Hx. destruct (first_index p ls) as [m|] eqn:Em.
  - exists m. split; [reflexivity|].
    apply first_index_Some in Em. destruct Em as [_ Hlt].
    destruct (Nat.le_gt_cases m n) as [H | H]; [assumption|].
    rewrite (Hlt n x H E) in Hx. discriminate.
  - exfalso. rewrite first_index_None in Em.
    rewrite (Em x) in Hx; [discriminate|]. eapply nth_error_In; eassumption.
Qed.

(** A marker line followed, at or after it, by a lone brace gives a
    boundary. *)
Lemma boundary_exists (lines : list text) (i j : nat) (li lj : text) :
  nth_error lines i = Some li -> holds_marker li ->
  nth_error lines j = Some lj -> lone_brace lj -> i <= j ->
  exists b, boundary lines = Some b /\ b <= j.
Proof.
  intros Ei Hi Ej Hj Hij. apply has_marker_iff in Hi. apply is_close_iff in Hj.
  destruct (first_index_le (contains marker) lines i Ei Hi) as [a [Ea Hai]].
  assert (nth_error (skipn a lines) (j - a) = Some lj) as Ej'.
  { rewrite nth_error_skipn_add. now replace (a + (j - a)) with j by lia. }
  destruct (first_index_le is_close (skipn a lines) (j - a) Ej' Hj) as [n [En Hn]].
  exists (a + n). unfold boundary. rewrite Ea, En. split; [reflexivity | lia].
Qed.

Lemma boundary_none_iff (lines : list text) :
  boundary lines = None <-> ~ exists j, boundary_at lines j.
Proof.
  split.
  - intros H [j Hj]. apply boundary_at_iff in Hj. congruence.
  - intros H. destruct (boundary lines) as [j|] eqn:E; [|reflexivity].
    exfalso. apply H. exists j. now apply boundary_at_iff.
Qed.

Lemma concat_firstn_prefix (lines : list text) (n : nat) :
  concat lines = concat (firstn n lines) ++ concat (skipn n lines).
Proof. now rewrite <- concat_app, firstn_skipn. Qed.

(** ** The claims *)

(** C1, as the code has it: when some line holds the marker and a line at
    or after it is, once trimmed, exactly ['}'], the run rewrites the file.
    The new content is the lines from index 0 through the boundary line as
    they were read, that is with every line end of the file handed over as
    LF, followed by [new_types] and nothing else, every LF of that text
    being put on disk as the line separator of the platform; that content
    is written once and success is printed.  The kept lines are the
    beginning of the file's text as read; when the file holds no CR they
    are the beginning of the file itself, and where the line separator is
    LF the new content is those lines and [new_types], character for
    character. *)
Theorem C1_prefix_then_payload
    (os : Platform) (w : World) (i j : nat) (li lj : text) :
  nth_error (readlines (file w)) i = Some li -> holds_marker li ->
  nth_error (readlines (file w)) j = Some lj -> strip lj = close_line ->
  i <= j ->
  exists (b : nat) (kept dropped : text),
    boundary_at (readlines (file w)) b /\
    limit_end_index (readlines (file w)) = Z.of_nat b /\
    kept = concat (firstn (S b) (readlines (file w))) /\
    universal_newlines (file w) = kept ++ dropped /\
    file (main os w) = newlines_out os (kept ++ new_types) /\
    writes (main os w) = writes w ++ [newlines_out os (kept ++ new_types)] /\
    stdout (main os w) = stdout w ++ [msg_fixed] /\
    (~ In CR (file w) -> file w = kept ++ dropped) /\
    (os = Posix -> file (main os w) = kept ++ new_types).
Proof.
  intros Ei Hi Ej Hj Hij. apply strip_lone_brace in Hj.
  destruct (boundary_exists _ Ei Hi Ej Hj Hij) as [b [Hb _]].
  exists b, (concat (firstn (S b) (readlines (file w)))),
         (concat (skipn (S b) (readlines (file w)))).
  assert (universal_newlines (file w) =
          concat (firstn (S b) (readlines (file w))) ++
          concat (skipn (S b) (readlines (file w)))) as Hsplit.
  { rewrite <- concat_firstn_prefix. symmetry. apply concat_readlines. }
  rewrite (main_found os w Hb), limit_end_index_boundary, Hb.
  cbn [file writes stdout print write_file].
  repeat split.
  - now apply boundary_at_iff.
  - exact Hsplit.
  - intros Hcr. now rewrite <- Hsplit, universal_newlines_id.
  - intros ->. apply newlines_out_posix.
Qed.

Lemma C1_witness :
  exists (b : nat) (kept dropped : text),
    boundary_at (readlines (file (fresh doc_crlf))) b /\
    limit_end_index (readlines (file (fresh doc_crlf))) = Z.of_nat b /\
    kept = concat (firstn (S b) (readlines (file (fresh doc_crlf)))) /\
    universal_newlines (file (fresh doc_crlf)) = kept ++ dropped /\
    file (main Windows (fresh doc_crlf)) =
      newlines_out Windows (kept ++ new_types) /\
    writes (main Windows (fresh doc_crlf)) =
      writes (fresh doc_crlf) ++ [newlines_out Windows (kept ++ new_types)] /\
    stdout (main Windows (fresh doc_crlf)) =
      stdout (fresh doc_crlf) ++ [msg_fixed] /\
    (~ In CR (file (fresh doc_crlf)) -> file (fresh doc_crlf) = kept ++ dropped) /\
    (Windows = Posix ->
     file (main Windows (fresh doc_crlf)) = kept ++ new_types).
Proof.
  apply (@C1_prefix_then_payload Windows (fresh doc_crlf) 0 2
           (of_string "export interface TransactionLimit {" ++ [LF])
           (of_string "}" ++ [LF])).
  - reflexivity.
  - exists [], (of_string " {" ++ [LF]). reflexivity.
  - reflexivity.
  - reflexivity.
  - lia.
Defined.

(** C1 as stated fails: the scenario document with CRLF line ends is
    rewritten, where the line separator is LF, to a content whose kept
    lines end with LF; no beginning of the document, followed by
    [new_types], is that content. *)
Lemma C1_counterexample :
  stdout (main Posix (fresh doc_crlf)) = [msg_fixed] /\
  firstn 37 doc_crlf =
    of_string "export interface TransactionLimit {" ++ [CR; LF] /\
  firstn 37 (file (main Posix (fresh doc_crlf))) =
    of_string "export interface TransactionLimit {" ++ [LF; 32%N] /\
  ~ (exists kept dropped,
       doc_crlf = kept ++ dropped /\
       file (main Posix (fresh doc_crlf)) = kept ++ new_types).
Proof.
  split; [vm_compute; reflexivity|].
  split; [vm_compute; reflexivity|].
  split; [vm_compute; reflexivity|].
  intros (kept & dropped & E1 & E2).
  assert (length kept = 56) as Hlen.
  { assert (length (file (main Posix (fresh doc_crlf))) = 1081) as L
      by (vm_compute; reflexivity).
    rewrite E2, length_app in L.
    change (length new_types) with 1025 in L. lia. }
  apply (f_equal (firstn 37)) in E1, E2.
  rewrite firstn_app in E1, E2.
  replace (37 - length kept) with 0 in E1, E2 by lia.
  simpl firstn at 3 in E1. simpl firstn at 3 in E2.
  rewrite app_nil_r in E1, E2. rewrite <- E1 in E2.
  vm_compute in E2. discriminate E2.
Qed.

(** C2: when no line holds the marker, the run writes nothing, leaves the
    content of the file as it was and prints the not-found message. *)
Theorem C2_no_marker_no_write (os : Platform) (w : World) :
  (forall l, In l (readlines (file w)) -> ~ holds_marker l) ->
  writes (main os w) = writes w /\
  file (main os w) = file w /\
  stdout (main os w) = stdout w ++ [msg_not_found] /\
  limit_end_index (readlines (file w)) = (-1)%Z.
Proof.
  intros H.
  assert (boundary (readlines (file w)) = None) as Hb.
  { unfold boundary.
    assert (first_index (contains marker) (readlines (file w)) = None) as ->;
      [|reflexivity].
    apply first_index_None. intros l Hl.
    destruct (contains marker l) eqn:C; [|reflexivity].
    exfalso. apply (H l Hl). now apply has_marker_iff. }
  rewrite (main_not_found os w Hb), limit_end_index_boundary, Hb.
  repeat split.
Qed.

Lemma C2_witness :
  writes (main Posix (fresh doc_missing)) = [] /\
  file (main Posix (fresh doc_missing)) = doc_missing /\
  stdout (main Posix (fresh doc_missing)) = [] ++ [msg_not_found] /\
  limit_end_index (readlines doc_missing) = (-1)%Z.
Proof.
  apply (@C2_no_marker_no_write Posix (fresh doc_missing)).
  intros l Hl Hm. apply has_marker_iff in Hm.
  cbv in Hl. destruct Hl as [<- | [<- | [<- | []]]]; vm_compute in Hm; discriminate.
Defined.

(** C3: when a line holds the marker but no line at or after the first
    such line is, once trimmed, exactly ['}'], the run writes nothing and
    leaves the file as it was: the boundary is the sentinel and the writing
    branch is not taken. *)
Theorem C3_no_close_no_write (os : Platform) (w : World) (i : nat) :
  anchor_at (readlines (file w)) i ->
  (forall k l, i <= k -> nth_error (readlines (file w)) k = Some l ->
               strip l <> close_line) ->
  limit_end_index (readlines (file w)) = (-1)%Z /\
  writes (main os w) = writes w /\
  file (main os w) = file w /\
  stdout (main os w) = stdout w ++ [msg_not_found].
Proof.
  intros Ha Hno.
  assert (boundary (readlines (file w)) = None) as Hb.
  { apply boundary_none_iff. intros [j (a & Ha' & Haj & [l [El Hl]] & _)].
    rewrite (anchor_at_unique Ha Ha') in Hno.
    apply (Hno j l Haj El). now apply strip_lone_brace. }
  rewrite (main_not_found os w Hb), limit_end_index_boundary, Hb.
  repeat split.
Qed.

Lemma C3_witness :
  limit_end_index (readlines doc_open) = (-1)%Z /\
  writes (main Posix (fresh doc_open)) = [] /\
  file (main Posix (fresh doc_open)) = doc_open /\
  stdout (main Posix (fresh doc_open)) = [] ++ [msg_not_found].
Proof.
  apply (@C3_no_close_no_write Posix (fresh doc_open) 0).
  - split.
    + eexists. split; [reflexivity|].
      exists [], (of_string " {" ++ [LF]). reflexivity.
    + intros k l Hk. lia.
  - intros k l _ Hl.
    destruct k as [|[|[|k]]]; cbv in Hl;
      [| | | destruct k; discriminate];
      inversion Hl; subst l; vm_compute; discriminate.
Defined.

Lemma limit_end_index_Some (lines : list text) (b : nat) :
  limit_end_index lines = Z.of_nat b <-> boundary lines = Some b.
Proof.
  rewrite limit_end_index_boundary.
  destruct (boundary lines) as [j|]; split; intros H.
  - f_equal. lia.
  - inversion H. reflexivity.
  - lia.
  - discriminate.
Qed.

Lemma limit_end_index_None (lines : list text) :
  limit_end_index lines = (-1)%Z <-> boundary lines = None.
Proof.
  rewrite limit_end_index_boundary.
  destruct (boundary lines) as [j|]; split; intros H;
    try reflexivity; try discriminate; lia.
Qed.

(** C4: the inner loop starts at the first line that holds the marker (the
    anchor-start line), and the index the loops compute is that of the
    first line, at or after the anchor-start line, that is a lone brace
    once trimmed; it is the sentinel [-1] exactly when there is no such
    line, and otherwise an index into the document. *)
Theorem C4_first_marker_then_first_lone_brace (lines : list text) :
  (forall i, anchor_at lines i ->
     limit_end_index lines = find_close (skipn i lines) (Z.of_nat i)) /\
  (forall j, limit_end_index lines = Z.of_nat j <-> boundary_at lines j) /\
  (limit_end_index lines = (-1)%Z <-> ~ exists j, boundary_at lines j) /\
  (limit_end_index lines = (-1)%Z \/
   (0 <= limit_end_index lines < Z.of_nat (length lines))%Z).
Proof.
  split; [|split; [|split]].
  - intros i Ha. apply anchor_at_first in Ha.
    unfold limit_end_index. now rewrite find_anchor_first, Ha.
  - intros j. now rewrite limit_end_index_Some, boundary_at_iff.
  - now rewrite limit_end_index_None, boundary_none_iff.
  - rewrite limit_end_index_boundary.
    destruct (boundary lines) as [j|] eqn:E; [right | now left].
    apply boundary_lt in E. lia.
Qed.

Lemma C4_witness :
  boundary_at (readlines doc_semicolon) 3 /\
  limit_end_index (readlines doc_semicolon) =
    find_close (skipn 0 (readlines doc_semicolon)) (Z.of_nat 0).
Proof.
  destruct (C4_first_marker_then_first_lone_brace (readlines doc_semicolon))
    as (Hanchor & Hiff & _ & _).
  split.
  - apply (proj1 (Hiff 3)). reflexivity.
  - apply Hanchor. split.
    + eexists. split; [reflexivity|].
      exists [], (of_string " {" ++ [LF]). reflexivity.
    + intros k l Hk. lia.
Defined.

(** C5: a line that holds ['}'] together with another character that is
    not whitespace is not a lone brace once trimmed, is never the index the
    loops compute, and does not stop the inner loop, which goes on with the
    next line; the line the loops select is, once trimmed, exactly
    ['}']. *)
Theorem C5_brace_with_other_tokens_skipped
    (lines : list text) (k : nat) (l : text) (c : char) :
  nth_error lines k = Some l ->
  In rbrace l -> In c l -> isspace c = false -> c <> rbrace ->
  strip l <> close_line /\
  limit_end_index lines <> Z.of_nat k /\
  (forall rest j, find_close (l :: rest) j = find_close rest (j + 1)) /\
  (forall j lj, limit_end_index lines = Z.of_nat j ->
                nth_error lines j = Some lj -> strip lj = close_line).
Proof.
  intros El Hbrace Hc Hns Hnb.
  assert (strip l <> close_line) as Hl.
  { intros H. apply strip_lone_brace in H.
    destruct (@lone_brace_chars l c H Hc) as [E | E]; congruence. }
  assert (forall j lj, limit_end_index lines = Z.of_nat j ->
            nth_error lines j = Some lj -> strip lj = close_line) as Hsel.
  { intros j lj Hj Elj.
    apply limit_end_index_Some, boundary_at_iff in Hj.
    destruct Hj as (_ & _ & _ & [l' [El' Hl']] & _).
    rewrite Elj in El'. inversion El'; subst. now apply strip_lone_brace. }
  repeat split.
  - assumption.
  - intros H. apply Hl. now apply (Hsel k l).
  - intros rest j. simpl.
    destruct (text_eqb (strip l) close_line) eqn:E; [|reflexivity].
    apply text_eqb_eq in E. contradiction.
  - assumption.
Qed.

Lemma C5_witness :
  strip (of_string "  };" ++ [LF]) <> close_line /\
  limit_end_index (readlines doc_semicolon) <> Z.of_nat 2 /\
  (forall rest j, find_close ((of_string "  };" ++ [LF]) :: rest) j =
                  find_close rest (j + 1)) /\
  (forall j lj, limit_end_index (readlines doc_semicolon) = Z.of_nat j ->
                nth_error (readlines doc_semicolon) j = Some lj ->
                strip lj = close_line).
Proof.
  apply (@C5_brace_with_other_tokens_skipped
           (readlines doc_semicolon) 2 (of_string "  };" ++ [LF]) 59%N).
  - reflexivity.
  - cbv. tauto.
  - cbv. tauto.
  - reflexivity.
  - discriminate.
Defined.

(** ** Running again on the rewritten file *)

Lemma new_types_head : new_types = LF :: tl new_types.
Proof. reflexivity. Qed.

Lemma firstn_app_exact (A : Type) (l1 l2 : list A) (n : nat) :
  length l1 = n -> firstn n (l1 ++ l2) = l1.
Proof.
  intros <-. rewrite firstn_app, firstn_all, Nat.sub_diag. apply app_nil_r.
Qed.

Lemma lone_brace_LF (l : text) : lone_brace l -> lone_brace (l ++ [LF]).
Proof.
  intros (pre & post & -> & Bpre & Bpost).
  exists pre, (post ++ [LF]). rewrite <- app_assoc. repeat split; try assumption.
  apply Forall_app. split; [assumption | repeat constructor].
Qed.

(** The lines of the text a run hands to the text layer: the kept lines,
    then those of [new_types]; when the boundary line had no line end, it
    takes the one [new_types] opens with. *)
Lemma recut (s : text) (b : nat) (lb : text) :
  nth_error (cut_lines s) b = Some lb ->
  (terminated lb /\
   cut_lines (concat (firstn (S b) (cut_lines s)) ++ new_types) =
   firstn (S b) (cut_lines s) ++ cut_lines new_types) \/
  (unterminated lb /\
   cut_lines (concat (firstn (S b) (cut_lines s)) ++ new_types) =
   firstn b (cut_lines s) ++ (lb ++ [LF]) :: cut_lines (tl new_types)).
Proof.
  intros Eb.
  assert (b < length (cut_lines s)) as Hb by (apply nth_error_Some; congruence).
  pose proof (@cut_lines_firstn_terminated s b Hb) as Hinit.
  rewrite (@firstn_S_nth_error _ _ _ _ Eb), concat_app. simpl concat.
  rewrite app_nil_r, <- !app_assoc.
  rewrite (@cut_lines_concat_app _ _ Hinit).
  destruct (@cut_lines_shape s b lb Eb) as [T | [U _]].
  - left. split; [assumption|]. destruct T as (body & -> & Hbody).
    now rewrite cut_lines_terminated_app.
  - right. split; [assumption|]. destruct U as [_ U].
    rewrite new_types_head at 1.
    change (lb ++ LF :: tl new_types) with (lb ++ [LF] ++ tl new_types).
    now rewrite app_assoc, cut_lines_terminated_app.
Qed.

(** The same for the lines read from the file a run has written. *)
Lemma reread (os : Platform) (s : text) (b : nat) (lb : text) :
  nth_error (readlines s) b = Some lb ->
  (terminated lb /\
   readlines (newlines_out os
                (concat (firstn (S b) (readlines s)) ++ new_types)) =
   firstn (S b) (readlines s) ++ cut_lines new_types) \/
  (unterminated lb /\
   readlines (newlines_out os
                (concat (firstn (S b) (readlines s)) ++ new_types)) =
   firstn b (readlines s) ++ (lb ++ [LF]) :: cut_lines (tl new_types)).
Proof.
  intros Eb. rewrite readlines_written. now apply recut.
Qed.

Lemma boundary_reread (os : Platform) (s : text) (b : nat) :
  boundary (readlines s) = Some b ->
  boundary (readlines (newlines_out os
                         (concat (firstn (S b) (readlines s)) ++ new_types)))
  = Some b.
Proof.
  intros Hb. pose proof (@boundary_lt _ _ Hb) as Hlt.
  destruct (nth_error (readlines s) b) as [lb|] eqn:Eb;
    [|apply nth_error_None in Eb; lia].
  apply boundary_at_iff in Hb.
  assert (lone_brace lb) as Hlb.
  { destruct Hb as (_ & _ & _ & [l [El Hl]] & _). congruence. }
  assert (length (firstn b (readlines s)) = b) as Hlen
    by (rewrite length_firstn; lia).
  apply boundary_at_iff.
  destruct (@reread os s b lb Eb) as [[_ ->] | [_ ->]].
  - apply (@boundary_at_prefix _ _ _ lb Hb); [| | assumption].
    + rewrite (@firstn_S_nth_error _ _ _ _ Eb), <- app_assoc.
      now apply firstn_app_exact.
    + rewrite (@firstn_S_nth_error _ _ _ _ Eb), <- app_assoc.
      rewrite nth_error_app2 by lia.
      now rewrite Hlen, Nat.sub_diag.
  - apply (@boundary_at_prefix _ _ _ (lb ++ [LF]) Hb).
    + now apply firstn_app_exact.
    + rewrite nth_error_app2 by lia. now rewrite Hlen, Nat.sub_diag.
    + now apply lone_brace_LF.
Qed.

Lemma file_main_found (os : Platform) (w : World) (b : nat) :
  boundary (readlines (file w)) = Some b ->
  file (main os w) =
  newlines_out os (concat (firstn (S b) (readlines (file w))) ++ new_types).
Proof. intros H. now rewrite (@main_found os w b H). Qed.

Lemma stdout_main_found (os : Platform) (w : World) (b : nat) :
  boundary (readlines (file w)) = Some b ->
  stdout (main os w) = stdout w ++ [msg_fixed].
Proof. intros H. now rewrite (@main_found os w b H). Qed.

Lemma writes_main_found (os : Platform) (w : World) (b : nat) :
  boundary (readlines (file w)) = Some b ->
  writes (main os w) = writes w ++ [file (main os w)].
Proof. intros H. now rewrite (@main_found os w b H). Qed.

(** C6, as the code has it: the kept prefix still holds the marker line
    and the lone brace, so a second run on the rewritten file finds the
    same boundary index, prints success again and writes the file again. *)
Theorem C6_second_run_finds_anchor_again (os : Platform) (w : World) (b : nat) :
  limit_end_index (readlines (file w)) = Z.of_nat b ->
  limit_end_index (readlines (file (main os w))) = Z.of_nat b /\
  stdout (main os (main os w)) = stdout w ++ [msg_fixed; msg_fixed] /\
  writes (main os (main os w)) = writes w ++ [file (main os w); file (main os (main os w))].
Proof.
  intros H. apply limit_end_index_Some in H.
  assert (boundary (readlines (file (main os w))) = Some b) as H2.
  { rewrite (@file_main_found os _ _ H). now apply boundary_reread. }
  split; [now apply limit_end_index_Some|]. split.
  - rewrite (@stdout_main_found os _ _ H2), (@stdout_main_found os _ _ H).
    now rewrite <- app_assoc.
  - rewrite (@writes_main_found os _ _ H2), (@writes_main_found os _ _ H).
    now rewrite <- app_assoc.
Qed.

Lemma C6_witness :
  limit_end_index (readlines (file (main Posix (fresh doc_scenario)))) = Z.of_nat 2 /\
  stdout (main Posix (main Posix (fresh doc_scenario))) = [] ++ [msg_fixed; msg_fixed] /\
  writes (main Posix (main Posix (fresh doc_scenario))) =
    [] ++ [file (main Posix (fresh doc_scenario));
           file (main Posix (main Posix (fresh doc_scenario)))].
Proof.
  apply (@C6_second_run_finds_anchor_again Posix (fresh doc_scenario) 2).
  reflexivity.
Defined.

(** C6 as stated fails: no line of [new_types] holds the marker, the first
    run on the scenario document succeeds, and the second run prints
    success, not the not-found message, and writes the file a second
    time. *)
Lemma C6_counterexample :
  (forall l, In l (readlines new_types) -> contains marker l = false) /\
  stdout (main Posix (fresh doc_scenario)) = [msg_fixed] /\
  stdout (main Posix (main Posix (fresh doc_scenario))) = [msg_fixed; msg_fixed] /\
  stdout (main Posix (main Posix (fresh doc_scenario))) <> [msg_fixed; msg_not_found] /\
  writes (main Posix (main Posix (fresh doc_scenario))) =
    [file (main Posix (fresh doc_scenario)); file (main Posix (fresh doc_scenario))].
Proof.
  split; [|split; [|split; [|split]]].
  - assert (forallb (fun l => negb (contains marker l)) (readlines new_types)
            = true) as H by (vm_compute; reflexivity).
    rewrite forallb_forall in H. intros l Hl. specialize (H l Hl).
    now destruct (contains marker l).
  - vm_compute; reflexivity.
  - vm_compute; reflexivity.
  - vm_compute; discriminate.
  - vm_compute; reflexivity.
Qed.

(** C7, as the code has it: [readlines] keeps the line ends, each handed
    over as the one character LF.  Every element is one line of the file
    with LF as its last character, no LF before it and no CR at all; only
    the last element can lack the LF, when the file does not end with a
    line end, and it is then not empty.  The elements are in the order of
    the file: joined, they are the file's text with its line ends
    as LF. *)
Theorem C7_lines_keep_their_terminator (doc : text) :
  concat (readlines doc) = universal_newlines doc /\
  (forall k l, nth_error (readlines doc) k = Some l ->
     ~ In CR l /\
     (terminated l \/ (unterminated l /\ S k = length (readlines doc)))).
Proof.
  split; [apply concat_readlines|].
  intros k l E. split; [|now apply readlines_shape].
  apply (@readlines_no_CR doc l). eapply nth_error_In. exact E.
Qed.

Lemma C7_witness :
  concat (readlines doc_crlf) = universal_newlines doc_crlf /\
  terminated (of_string "}" ++ [LF]).
Proof.
  destruct (C7_lines_keep_their_terminator doc_crlf) as [Hcat Hshape].
  split; [exact Hcat|].
  destruct (Hshape 2 (of_string "}" ++ [LF]) eq_refl) as [_ [T | [_ L]]];
    [exact T | discriminate L].
Defined.

(** C7 as stated fails: the one element read from the file ["}\n"] ends
    with the line terminator. *)
Lemma C7_counterexample :
  readlines (of_string "}" ++ [LF]) = [[rbrace; LF]] /\
  ~ (forall doc l, In l (readlines doc) -> ~ exists body, l = body ++ [LF]).
Proof.
  split; [reflexivity|].
  intros H. apply (H (of_string "}" ++ [LF]) [rbrace; LF]).
  - now left.
  - now exists [rbrace].
Qed.

(** C8: a run prints exactly one message, and it is one of two.  It
    prints success exactly when a boundary was found, and then the file was
    written once; it prints not-found exactly when no boundary was found,
    and then nothing was written and the file is as before.  Never both,
    never neither. *)
Theorem C8_one_of_two_outcomes (os : Platform) (w : World) :
  let found := exists b, boundary_at (readlines (file w)) b in
  let rewritten := writes (main os w) = writes w ++ [file (main os w)] in
  let untouched := writes (main os w) = writes w /\ file (main os w) = file w in
  (stdout (main os w) = stdout w ++ [msg_fixed] <-> found /\ rewritten) /\
  (stdout (main os w) = stdout w ++ [msg_not_found] <-> ~ found /\ untouched) /\
  (stdout (main os w) = stdout w ++ [msg_fixed] \/
   stdout (main os w) = stdout w ++ [msg_not_found]) /\
  ~ (stdout (main os w) = stdout w ++ [msg_fixed] /\
     stdout (main os w) = stdout w ++ [msg_not_found]).
Proof.
  intros found rewritten untouched. subst found rewritten untouched.
  assert (forall a b : string, stdout w ++ [a] = stdout w ++ [b] -> a = b) as Hinj.
  { intros a b E. apply app_inv_head in E. now inversion E. }
  destruct (boundary (readlines (file w))) as [b|] eqn:Hb.
  - assert (exists b, boundary_at (readlines (file w)) b) as Hf
      by (exists b; now apply boundary_at_iff).
    rewrite (main_found os w Hb). cbn [stdout writes file print write_file].
    split; [|split; [|split]].
    + split; [intros _; split; [assumption | reflexivity] | reflexivity].
    + split.
      * intros E. apply Hinj in E. discriminate.
      * intros [Hn _]. contradiction.
    + now left.
    + intros [_ E]. apply Hinj in E. discriminate.
  - assert (~ exists b, boundary_at (readlines (file w)) b) as Hf
      by now apply boundary_none_iff.
    rewrite (main_not_found os w Hb). cbn [stdout writes file print].
    split; [|split; [|split]].
    + split.
      * intros E. apply Hinj in E. discriminate.
      * intros [Hn _]. contradiction.
    + split; [intros _; repeat split; assumption | reflexivity].
    + now right.
    + intros [E _]. apply Hinj in E. discriminate.
Qed.

(** C9, as the code has it: when the run succeeds and the boundary line
    ends with a line end, a second run on the rewritten file leaves its
    content as the first run made it. *)
Theorem C9_idempotent_when_boundary_line_terminated (os : Platform)
    (w : World) (b : nat) (lb body : text) :
  limit_end_index (readlines (file w)) = Z.of_nat b ->
  nth_error (readlines (file w)) b = Some lb ->
  lb = body ++ [LF] ->
  file (main os (main os w)) = file (main os w).
Proof.
  intros H Eb Elb. apply limit_end_index_Some in H.
  assert (boundary (readlines (file (main os w))) = Some b) as H2.
  { rewrite (@file_main_found os _ _ H). now apply boundary_reread. }
  rewrite (@file_main_found os _ _ H2), (@file_main_found os _ _ H).
  apply (f_equal (newlines_out os)), (f_equal (fun x => x ++ new_types)).
  apply (f_equal (@concat char)).
  destruct (@reread os (file w) b lb Eb) as [[_ ->] | [[_ U] _]].
  - apply firstn_app_exact. rewrite length_firstn.
    pose proof (@boundary_lt _ _ H). lia.
  - exfalso. apply U. subst lb. apply in_or_app. right. now left.
Qed.

Lemma C9_witness :
  file (main Posix (main Posix (fresh doc_scenario))) = file (main Posix (fresh doc_scenario)).
Proof.
  apply (@C9_idempotent_when_boundary_line_terminated Posix
           (fresh doc_scenario) 2 (of_string "}" ++ [LF]) (of_string "}")).
  - reflexivity.
  - reflexivity.
  - reflexivity.
Defined.

(** C9 as stated fails: when the lone brace is the last line and the file
    does not end with a line end, the first run succeeds and the second run
    gives a content that differs from that of the first (it is one
    character longer: the brace line has taken the line end that opens
    [new_types], and [new_types] is appended whole once more). *)
Lemma C9_counterexample :
  stdout (main Posix (fresh doc_unterminated)) = [msg_fixed] /\
  file (main Posix (main Posix (fresh doc_unterminated))) <>
  file (main Posix (fresh doc_unterminated)) /\
  length (file (main Posix (fresh doc_unterminated))) = 1080 /\
  length (file (main Posix (main Posix (fresh doc_unterminated)))) = 1081.
Proof.
  split; [vm_compute; reflexivity|]. split.
  - intros E. apply (f_equal (@length char)) in E. vm_compute in E. discriminate.
  - split; vm_compute; reflexivity.
Qed.

(** C10: when the boundary of a document is at index [b], any document
    that has the same lines up to index [b], whatever its lines after [b]
    are, is rewritten to exactly the same content, with the same boundary
    index. *)
Theorem C10_only_the_prefix_matters (os : Platform) (w w' : World) (b : nat) :
  limit_end_index (readlines (file w)) = Z.of_nat b ->
  firstn (S b) (readlines (file w')) = firstn (S b) (readlines (file w)) ->
  limit_end_index (readlines (file w')) = Z.of_nat b /\
  file (main os w') = file (main os w).
Proof.
  intros H Hpre. apply limit_end_index_Some in H.
  pose proof (@boundary_lt _ _ H) as Hlt.
  destruct (nth_error (readlines (file w)) b) as [lb|] eqn:Eb;
    [|apply nth_error_None in Eb; lia].
  assert (boundary (readlines (file w')) = Some b) as H'.
  { apply boundary_at_iff. apply boundary_at_iff in H.
    apply (@boundary_at_prefix _ _ _ lb H).
    - apply (f_equal (firstn b)) in Hpre.
      rewrite !firstn_firstn in Hpre.
      now replace (Nat.min b (S b)) with b in Hpre by lia.
    - apply (f_equal (fun l => nth_error l b)) in Hpre.
      rewrite !nth_error_firstn in Hpre.
      destruct (Nat.ltb_spec b (S b)); [congruence | lia].
    - destruct H as (_ & _ & _ & [l [El Hl]] & _). congruence. }
  split; [now apply limit_end_index_Some|].
  rewrite (@file_main_found os _ _ H'), (@file_main_found os _ _ H).
  now rewrite Hpre.
Qed.

Lemma C10_witness :
  limit_end_index (readlines (file (fresh doc_other_tail))) = Z.of_nat 2 /\
  file (main Posix (fresh doc_other_tail)) = file (main Posix (fresh doc_scenario)).
Proof.
  apply (@C10_only_the_prefix_matters Posix
           (fresh doc_scenario) (fresh doc_other_tail) 2);
    vm_compute; reflexivity.
Defined.

(** ** Further properties of the script *)

Lemma file_main_ext (os : Platform) (w1 w2 : World) :
  file w1 = file w2 -> file (main os w1) = file (main os w2).
Proof.
  intros E. unfold main. rewrite E.
  now destruct (negb (limit_end_index (readlines (file w2)) =? -1)%Z).
Qed.

Lemma stdout_main (os : Platform) (w : World) : stdout (main os w) = stdout w ++ [message w].
Proof.
  unfold main, message.
  now destruct (negb (limit_end_index (readlines (file w)) =? -1)%Z).
Qed.

(** One run leaves the index the loops compute as it was. *)
Lemma limit_end_index_main (os : Platform) (w : World) :
  limit_end_index (readlines (file (main os w))) =
  limit_end_index (readlines (file w)).
Proof.
  destruct (boundary (readlines (file w))) as [b|] eqn:Hb.
  - rewrite (proj2 (limit_end_index_Some _ b) Hb).
    apply limit_end_index_Some.
    rewrite (@file_main_found os _ _ Hb). now apply boundary_reread.
  - now rewrite (main_not_found os w Hb).
Qed.

Lemma message_main (os : Platform) (w : World) : message (main os w) = message w.
Proof. unfold message. now rewrite limit_end_index_main. Qed.

(** X1: however often the script is run, the index it computes is the one
    of the first run, and every run prints the message of the first: a file
    that was fixed once is reported fixed ever after, and a file without
    the anchor stays without. *)
Theorem runs_keep_index_and_message (os : Platform) (w : World) (n : nat) :
  limit_end_index (readlines (file (Nat.iter n (main os) w))) =
    limit_end_index (readlines (file w)) /\
  stdout (Nat.iter n (main os) w) = stdout w ++ repeat (message w) n.
Proof.
  induction n as [|n [IHi IHs]].
  - split; [reflexivity | symmetry; apply app_nil_r].
  - change (Nat.iter (S n) (main os) w) with (main os (Nat.iter n (main os) w)). split.
    + now rewrite limit_end_index_main.
    + rewrite stdout_main, IHs, <- app_assoc. f_equal.
      assert (message (Nat.iter n (main os) w) = message w) as ->
        by (unfold message; now rewrite IHi).
      symmetry. apply repeat_cons.
Qed.

(** The content a run writes, when the boundary line ends with LF, is
    written again unchanged by the next run. *)
Lemma file_rerun_terminated (os : Platform) (w : World) (b : nat) (lb : text) :
  boundary (readlines (file w)) = Some b ->
  nth_error (readlines (file w)) b = Some lb ->
  terminated lb ->
  file (main os (main os w)) = file (main os w).
Proof.
  intros H Eb T.
  assert (boundary (readlines (file (main os w))) = Some b) as H2.
  { rewrite (@file_main_found os _ _ H). now apply boundary_reread. }
  rewrite (@file_main_found os _ _ H2), (@file_main_found os _ _ H).
  apply (f_equal (newlines_out os)), (f_equal (fun x => x ++ new_types)).
  apply (f_equal (@concat char)).
  destruct (@reread os (file w) b lb Eb) as [[_ ->] | [[_ U] _]].
  - apply firstn_app_exact. rewrite length_firstn.
    pose proof (@boundary_lt _ _ H). lia.
  - exfalso. destruct T as (body & -> & _). apply U, in_or_app. right. now left.
Qed.

(** In the file a run has written, the boundary line ends with LF. *)
Lemma boundary_line_after_run (os : Platform) (w : World) (b : nat) :
  boundary (readlines (file w)) = Some b ->
  exists lb', nth_error (readlines (file (main os w))) b = Some lb' /\
              terminated lb'.
Proof.
  intros H. pose proof (@boundary_lt _ _ H) as Hlt.
  destruct (nth_error (readlines (file w)) b) as [lb|] eqn:Eb;
    [|apply nth_error_None in Eb; lia].
  assert (length (firstn b (readlines (file w))) = b) as Hlen
    by (rewrite length_firstn; lia).
  rewrite (@file_main_found os _ _ H).
  destruct (@reread os (file w) b lb Eb) as [[T ->] | [[_ U] ->]].
  - exists lb. split; [|assumption].
    rewrite (@firstn_S_nth_error _ _ _ _ Eb), <- app_assoc.
    rewrite nth_error_app2 by lia. now rewrite Hlen, Nat.sub_diag.
  - exists (lb ++ [LF]). split; [|now exists lb].
    rewrite nth_error_app2 by lia. now rewrite Hlen, Nat.sub_diag.
Qed.

Lemma file_third_run (os : Platform) (w : World) :
  file (main os (main os (main os w))) = file (main os (main os w)).
Proof.
  destruct (boundary (readlines (file w))) as [b|] eqn:Hb.
  - destruct (boundary_line_after_run os w Hb) as (lb' & E' & T').
    apply (@file_rerun_terminated os (main os w) b lb'); try assumption.
    rewrite (@file_main_found os _ _ Hb). now apply boundary_reread.
  - assert (file (main os w) = file w) as E1
      by now rewrite (main_not_found os w Hb).
    apply file_main_ext, file_main_ext, E1.
Qed.

(** X2: from the second run on the content of the file no longer changes:
    after any number of runs beyond two it is what the second run left. *)
Theorem content_stable_from_second_run (os : Platform) (w : World) (n : nat) :
  file (Nat.iter (S (S n)) (main os) w) = file (main os (main os w)).
Proof.
  induction n as [|n IH]; [reflexivity|].
  change (Nat.iter (S (S (S n))) (main os) w)
    with (main os (Nat.iter (S (S n)) (main os) w)).
  rewrite (file_main_ext os _ _ IH). apply file_third_run.
Qed.

Lemma nth_error_app_exact (A : Type) (l1 l2 : list A) (x : A) :
  nth_error (l1 ++ x :: l2) (length l1) = Some x.
Proof. rewrite nth_error_app2 by lia. now rewrite Nat.sub_diag. Qed.

Lemma concat_last_line (L : list text) (b : nat) (lb : text) :
  nth_error L b = Some lb -> S b = length L ->
  concat L = concat (firstn b L) ++ lb.
Proof.
  intros E Hl. rewrite <- (firstn_all L) at 1.
  rewrite <- Hl, (@firstn_S_nth_error _ _ _ _ E), concat_app.
  simpl. now rewrite app_nil_r.
Qed.

(** X3: when the boundary line has no line end (it is then the last line
    of the file), the first run drops nothing: it writes the whole text it
    read followed by [new_types]; the second run does not reproduce that
    content: it puts one more line end between the old text and
    [new_types]. *)
Theorem unterminated_boundary_rerun
    (os : Platform) (w : World) (b : nat) (lb : text) :
  limit_end_index (readlines (file w)) = Z.of_nat b ->
  nth_error (readlines (file w)) b = Some lb ->
  ~ In LF lb ->
  S b = length (readlines (file w)) /\
  file (main os w) =
    newlines_out os (universal_newlines (file w) ++ new_types) /\
  file (main os (main os w)) =
    newlines_out os (universal_newlines (file w) ++ [LF] ++ new_types).
Proof.
  intros H Eb Hlf. apply limit_end_index_Some in H.
  assert (S b = length (readlines (file w))) as Hlast.
  { destruct (@readlines_shape _ _ _ Eb) as [(body & -> & _) | [_ L]];
      [|assumption].
    exfalso. apply Hlf, in_or_app. right. now left. }
  assert (concat (firstn b (readlines (file w))) ++ lb =
          universal_newlines (file w)) as Hcat.
  { rewrite <- (@concat_last_line _ _ _ Eb Hlast). apply concat_readlines. }
  assert (length (firstn b (readlines (file w))) = b) as Hlen
    by (rewrite length_firstn; lia).
  split; [assumption|]. split.
  - rewrite (@file_main_found os _ _ H), (@firstn_S_nth_error _ _ _ _ Eb).
    rewrite concat_app. simpl concat. now rewrite app_nil_r, Hcat.
  - assert (boundary (readlines (file (main os w))) = Some b) as H2.
    { rewrite (@file_main_found os _ _ H). now apply boundary_reread. }
    rewrite (@file_main_found os _ _ H2), (@file_main_found os _ _ H).
    apply (f_equal (newlines_out os)).
    destruct (@reread os (file w) b lb Eb) as [[(body & -> & _) _] | [_ ->]].
    + exfalso. apply Hlf, in_or_app. right. now left.
    + pose proof (@nth_error_app_exact text (firstn b (readlines (file w)))
                    (cut_lines (tl new_types)) (lb ++ [LF])) as En.
      rewrite Hlen in En. unfold text in *.
      rewrite (@firstn_S_nth_error _ _ _ _ En), firstn_app_exact by assumption.
      rewrite concat_app. simpl concat. rewrite app_nil_r.
      rewrite <- !app_assoc.
      etransitivity;
        [|apply (f_equal (fun x => x ++ LF :: new_types) Hcat)].
      apply app_assoc.
Qed.

Lemma unterminated_boundary_rerun_witness :
  S 2 = length (readlines (file (fresh doc_unterminated))) /\
  file (main Windows (fresh doc_unterminated)) =
    newlines_out Windows
      (universal_newlines (file (fresh doc_unterminated)) ++ new_types) /\
  file (main Windows (main Windows (fresh doc_unterminated))) =
    newlines_out Windows
      (universal_newlines (file (fresh doc_unterminated)) ++ [LF] ++ new_types).
Proof.
  apply (@unterminated_boundary_rerun Windows (fresh doc_unterminated) 2
           (of_string "}")).
  - reflexivity.
  - reflexivity.
  - cbv. intros [H | []]. discriminate H.
Defined.

(** X5: the inner loop starts on the marker line itself, but that line is
    never the one it stops at: the boundary is strictly after the first
    marker line, so the lines kept are at least two. *)
Theorem anchor_strictly_before_boundary (lines : list text) (i b : nat) :
  anchor_at lines i ->
  limit_end_index lines = Z.of_nat b ->
  i < b /\ 2 <= length (slice_to lines (limit_end_index lines + 1)).
Proof.
  intros Ha H. rewrite H, slice_to_succ.
  apply limit_end_index_Some in H. pose proof (@boundary_lt _ _ H) as Hlt.
  apply boundary_at_iff in H.
  destruct H as (a & Ha' & Hab & [lb [Elb Hlb]] & _).
  rewrite <- (anchor_at_unique Ha Ha') in Hab.
  assert (i < b) as Hib.
  { destruct (Nat.eq_dec i b) as [-> | ?]; [|lia]. exfalso.
    destruct Ha as [[la [Ela Hla]] _]. rewrite Ela in Elb.
    inversion Elb; subst. now apply (marker_not_lone_brace Hla). }
  split; [assumption|]. rewrite length_firstn. lia.
Qed.

Lemma anchor_strictly_before_boundary_witness :
  0 < 3 /\
  2 <= length (slice_to (readlines doc_semicolon)
                 (limit_end_index (readlines doc_semicolon) + 1)).
Proof.
  apply (@anchor_strictly_before_boundary (readlines doc_semicolon) 0 3).
  - split.
    + eexists. split; [reflexivity|].
      exists [], (of_string " {" ++ [LF]). reflexivity.
    + intros k l Hk. lia.
  - reflexivity.
Defined.

(** X6: in the writing branch the slice index is within the document: the
    list [new_content] holds the lines 0 to [limit_end_index] as they were
    read, in order, then [new_types] as its last element, and nothing
    else. *)
Theorem new_content_in_range (lines : list text) :
  limit_end_index lines <> (-1)%Z ->
  exists b, limit_end_index lines = Z.of_nat b /\ b < length lines /\
    length (new_content lines (limit_end_index lines)) = b + 2 /\
    (forall k, k <= b ->
       nth_error (new_content lines (limit_end_index lines)) k =
       nth_error lines k) /\
    nth_error (new_content lines (limit_end_index lines)) (S b) =
      Some new_types.
Proof.
  intros Hne.
  destruct (boundary lines) as [b|] eqn:Hb;
    [|now apply limit_end_index_None in Hb].
  pose proof (@boundary_lt _ _ Hb) as Hlt.
  apply limit_end_index_Some in Hb. exists b. rewrite Hb.
  unfold new_content. rewrite slice_to_succ.
  assert (length (firstn (S b) lines) = S b) as Hlen
    by (rewrite length_firstn; lia).
  repeat split; try assumption.
  - rewrite length_app, Hlen. simpl. lia.
  - intros k Hk. rewrite nth_error_app1 by lia.
    rewrite nth_error_firstn. destruct (Nat.ltb_spec k (S b)); [reflexivity | lia].
  - pose proof (@nth_error_app_exact text (firstn (S b) lines) [] new_types) as En.
    now rewrite Hlen in En.
Qed.

Lemma new_content_in_range_witness :
  exists b, limit_end_index (readlines doc_scenario) = Z.of_nat b /\
    b < length (readlines doc_scenario) /\
    length (new_content (readlines doc_scenario)
              (limit_end_index (readlines doc_scenario))) = b + 2 /\
    (forall k, k <= b ->
       nth_error (new_content (readlines doc_scenario)
                    (limit_end_index (readlines doc_scenario))) k =
       nth_error (readlines doc_scenario) k) /\
    nth_error (new_content (readlines doc_scenario)
                 (limit_end_index (readlines doc_scenario))) (S b) =
      Some new_types.
Proof.
  apply (@new_content_in_range (readlines doc_scenario)).
  vm_compute. discriminate.
Defined.

(** *** The marker and the cut into lines *)

Lemma marker_no_LF : ~ In LF marker.
Proof.
  assert (forallb (fun c => negb (char_eqb c LF)) marker = true) as H
    by reflexivity.
  rewrite forallb_forall in H. intros Hin. specialize (H LF Hin).
  discriminate H.
Qed.

Lemma cut_lines_first_line (m post : text) :
  m <> [] -> ~ In LF m ->
  exists l ls, cut_lines (m ++ post) = (m ++ l) :: ls.
Proof.
  induction m as [|c m IH]; intros Hne Hlf; [contradiction|].
  assert (char_eqb c LF = false) as Hc.
  { destruct (char_eqb c LF) eqn:E; [|reflexivity].
    apply char_eqb_eq in E. exfalso. apply Hlf. now left. }
  simpl. rewrite Hc. destruct m as [|c' m].
  - simpl. destruct (cut_lines post) as [|l ls]; [now exists [], [] | now exists l, ls].
  - destruct IH as (l & ls & E); [discriminate | intros H; apply Hlf; now right |].
    rewrite E. now exists l, ls.
Qed.

Lemma substring_in_a_line (m pre post : text) :
  m <> [] -> ~ In LF m ->
  exists l, In l (cut_lines (pre ++ m ++ post)) /\
            exists p q, l = p ++ m ++ q.
Proof.
  intros Hne Hlf. induction pre as [|c pre (l & Hin & p & q & El)].
  - destruct (@cut_lines_first_line m post Hne Hlf) as (l & ls & E).
    exists (m ++ l). simpl. rewrite E. split; [now left | now exists [], l].
  - simpl. destruct (char_eqb c LF).
    + exists l. split; [now right | now exists p, q].
    + destruct (cut_lines (pre ++ m ++ post)) as [|l0 ls]; [contradiction|].
      destruct Hin as [<- | Hin].
      * exists (c :: l0). split; [now left|].
        exists (c :: p), q. now rewrite El.
      * exists l. split; [now right | now exists p, q].
Qed.

Lemma line_in_document (s l : text) :
  In l (cut_lines s) -> exists before after, s = before ++ l ++ after.
Proof.
  intros Hin. apply in_split in Hin. destruct Hin as (L1 & L2 & E).
  exists (concat L1), (concat L2).
  rewrite <- (concat_cut_lines s), E, concat_app. reflexivity.
Qed.

Lemma marker_no_CR : ~ In CR marker.
Proof.
  assert (forallb (fun c => negb (char_eqb c CR)) marker = true) as H
    by reflexivity.
  rewrite forallb_forall in H. intros Hin. specialize (H CR Hin).
  discriminate H.
Qed.

(** X4: the marker holds no line end, so looking for it line by line finds
    it exactly when it occurs anywhere in the file, whatever line ends the
    file has; when it occurs nowhere in the file the run only prints the
    not-found message. *)
Theorem marker_in_file_iff_in_a_line (os : Platform) (w : World) :
  (holds_marker (file w) <->
   exists l, In l (readlines (file w)) /\ holds_marker l) /\
  (~ holds_marker (file w) -> main os w = print msg_not_found w).
Proof.
  assert (holds_marker (file w) <->
          exists l, In l (readlines (file w)) /\ holds_marker l) as Hiff.
  { unfold holds_marker at 1.
    rewrite (@substring_universal_newlines marker (file w));
      [| discriminate | apply marker_no_LF | apply marker_no_CR].
    unfold readlines. split.
    - intros (pre & post & E). rewrite E.
      apply substring_in_a_line; [discriminate | apply marker_no_LF].
    - intros (l & Hin & p & q & El).
      destruct (@line_in_document _ _ Hin) as (before & after & E).
      exists (before ++ p), (q ++ after).
      rewrite E, El. now rewrite <- !app_assoc. }
  split; [exact Hiff|].
  intros Hno. apply main_not_found. unfold boundary.
  assert (first_index (contains marker) (readlines (file w)) = None) as ->;
    [|reflexivity].
  apply first_index_None. intros l Hl.
  destruct (contains marker l) eqn:C; [|reflexivity].
  exfalso. apply Hno, Hiff. exists l. split; [assumption | now apply has_marker_iff].
Qed.

Lemma marker_in_file_iff_in_a_line_witness :
  main Posix (fresh doc_missing) = print msg_not_found (fresh doc_missing).
Proof.
  apply (proj2 (marker_in_file_iff_in_a_line Posix (fresh doc_missing))).
  intros H. apply has_marker_iff in H. vm_compute in H. discriminate H.
Defined.

(** *** Whitespace around the brace *)

Lemma rstrip_blank_app (s ws : text) : blank ws -> rstrip (s ++ ws) = rstrip s.
Proof.
  intros B. unfold rstrip. rewrite rev_app_distr.
  now rewrite lstrip_blank_app by now apply blank_rev.
Qed.

Lemma lstrip_cases (s : text) :
  (blank s /\ lstrip s = []) \/
  (exists ws c r, blank ws /\ s = ws ++ c :: r /\ isspace c = false /\
                  lstrip s = c :: r).
Proof.
  induction s as [|c s IH]; simpl.
  - left. split; [constructor | reflexivity].
  - destruct (isspace c) eqn:Hc.
    + destruct IH as [[B E] | (ws & c' & r & B & E & Hc' & El)].
      * left. split; [now constructor | assumption].
      * right. exists (c :: ws), c', r. repeat split; try assumption.
        -- now constructor.
        -- simpl. now rewrite E.
    + right. exists [], c, s. repeat split; [constructor | assumption].
Qed.

Lemma strip_blank_around (pre l post : text) :
  blank pre -> blank post -> strip (pre ++ l ++ post) = strip l.
Proof.
  intros Bpre Bpost. unfold strip. rewrite lstrip_blank_app by assumption.
  destruct (lstrip_cases l) as [[B E] | (ws & c & r & B & -> & Hc & E)].
  - rewrite E.
    assert (blank (l ++ post)) as B' by (apply Forall_app; now split).
    destruct (lstrip_cases (l ++ post)) as [[_ ->] | (ws & c & r & _ & E' & Hc & _)];
      [reflexivity|].
    exfalso. unfold blank in B'. rewrite Forall_forall in B'.
    assert (isspace c = true) as X; [|congruence].
    apply B'. rewrite E'. apply in_or_app. right. now left.
  - rewrite E, <- app_assoc, lstrip_blank_app by assumption.
    simpl. rewrite Hc.
    change (c :: r ++ post) with ((c :: r) ++ post).
    now apply rstrip_blank_app.
Qed.

(** X7: whitespace before and after a line's content, the line end that
    [readlines] keeps included, plays no part in the test of the inner
    loop: indenting a line or adding blanks at its end never changes
    whether the loop stops at it. *)
Theorem surrounding_whitespace_ignored
    (pre l post : text) (rest : list text) (j : Z) :
  blank pre -> blank post ->
  strip (pre ++ l ++ post) = strip l /\
  find_close ((pre ++ l ++ post) :: rest) j = find_close (l :: rest) j.
Proof.
  intros Bpre Bpost.
  pose proof (@strip_blank_around pre l post Bpre Bpost) as E.
  split; [exact E|]. simpl. now rewrite E.
Qed.

Lemma surrounding_whitespace_ignored_witness :
  strip (of_string "  " ++ of_string "}" ++ [32%N; LF]) = strip (of_string "}") /\
  find_close ((of_string "  " ++ of_string "}" ++ [32%N; LF]) :: []) 7 =
  find_close (of_string "}" :: []) 7.
Proof.
  apply (@surrounding_whitespace_ignored
           (of_string "  ") (of_string "}") [32%N; LF] [] 7%Z).
  - repeat constructor.
  - repeat constructor.
Defined.

(** *** The size of the file *)

(** X9: [new_types] is 1025 characters long.  Where the line separator
    is LF, a run never makes the file longer than by that much, whatever
    the document is; on either platform the file after a run is at most
    twice as long as the old file and [new_types] together. *)
Theorem file_grows_by_at_most_payload (os : Platform) (w : World) :
  length new_types = 1025 /\
  length (file (main Posix w)) <= length (file w) + 1025 /\
  length (file (main os w)) <= 2 * (length (file w) + 1025).
Proof.
  split; [reflexivity|].
  pose proof (length_universal_newlines (file w)) as Hu.
  rewrite <- concat_readlines in Hu.
  destruct (boundary (readlines (file w))) as [b|] eqn:Hb.
  - rewrite (concat_firstn_prefix (readlines (file w)) (S b)), length_app in Hu.
    rewrite (@file_main_found Posix _ _ Hb), (@file_main_found os _ _ Hb).
    rewrite newlines_out_posix.
    pose proof (length_newlines_out os
                  (concat (firstn (S b) (readlines (file w))) ++ new_types)) as Ho.
    rewrite length_app in *.
    change (length new_types) with 1025 in *. lia.
  - rewrite (main_not_found Posix w Hb), (main_not_found os w Hb).
    cbn [file print]. lia.
Qed.
